(** * rtvoicechat: the voice-assistant backend, embedded and verified

    A shallow embedding of the Python server under [server/app]:
    - [data_handler.py]      (country / state capital lookup),
    - [bedrock_client.py]    (intent-response parser),
    - [audio_converter.py]   (audio format detection),
    - [transcribe_client.py] (streaming / bucket transcription orchestrator),
    - [voice_agent.py]       (the coordinator).

    Python [str] values are modelled as [string], one character per code
    point; the functions [lower], [isspace] and [strip] below agree with
    CPython on every string whose code points are below 256 (ASCII and
    Latin-1).  Python [bytes] are [list byte].  A Python [dict] with string
    keys is a [gmap string value]. *)

From Stdlib Require Import Ascii NArith ZArith Lia.
From Stdlib Require Import PrimFloat SpecFloat FloatOps.
From stdpp Require Import gmap strings list.

Local Open Scope N_scope.

(** ** Python values and dictionaries *)

Abbreviation bytes := (list Byte.byte).

Inductive value : Type :=
| VNone
| VBool (b : bool)
| VStr (s : string)
| VBytes (b : bytes).

Abbreviation dict := (gmap string value).

(** Python truthiness of a value, and of the result of [d.get(k)]. *)
Definition truthy_str (s : string) : bool :=
  match s with EmptyString => false | String _ _ => true end.

Definition truthy (v : value) : bool :=
  match v with
  | VNone => false
  | VBool b => b
  | VStr s => truthy_str s
  | VBytes b => match b with [] => false | _ :: _ => true end
  end.

Definition truthy_get (d : dict) (k : string) : bool :=
  match d !! k with Some v => truthy v | None => false end.

(** [d.get(k, dflt)] *)
Definition get_default (d : dict) (k : string) (dflt : value) : value :=
  match d !! k with Some v => v | None => dflt end.

(** [d.get(k)]: a missing key reads as [None]. *)
Definition get (d : dict) (k : string) : value := get_default d k VNone.

(** ** Python string operations *)

Module Str.

(** [str.isspace] on one character: TAB..CR, FS..US, SPACE, NEL, NBSP. *)
Definition isspace (c : ascii) : bool :=
  let n := N_of_ascii c in
  ((9 <=? n) && (n <=? 13)) || ((28 <=? n) && (n <=? 32))
  || (n =? 133) || (n =? 160).

(** Lower-casing of one character: A..Z, and the Latin-1 capitals
    U+00C0..U+00DE except the multiplication sign U+00D7. *)
Definition lower_char (c : ascii) : ascii :=
  let n := N_of_ascii c in
  if ((65 <=? n) && (n <=? 90))
     || ((192 <=? n) && (n <=? 222) && negb (n =? 215))
  then ascii_of_N (n + 32) else c.

Fixpoint lower (s : string) : string :=
  match s with
  | EmptyString => EmptyString
  | String c s' => String (lower_char c) (lower s')
  end.

Fixpoint lstrip (s : string) : string :=
  match s with
  | EmptyString => EmptyString
  | String c s' => if isspace c then lstrip s' else s
  end.

Fixpoint rstrip (s : string) : string :=
  match s with
  | EmptyString => EmptyString
  | String c s' =>
      match rstrip s' with
      | EmptyString => if isspace c then EmptyString else String c EmptyString
      | r => String c r
      end
  end.

(** [s.strip()] *)
Definition strip (s : string) : string := rstrip (lstrip s).

(** [s.startswith(p)] *)
Fixpoint startswith (p s : string) : bool :=
  match p, s with
  | EmptyString, _ => true
  | String a p', String b s' => if Ascii.eqb a b then startswith p' s' else false
  | String _ _, EmptyString => false
  end.

(** [s.split(sep)] for a one-character separator: never empty. *)
Fixpoint split (sep : ascii) (s : string) : list string :=
  match s with
  | EmptyString => [EmptyString]
  | String c s' =>
      if Ascii.eqb c sep then EmptyString :: split sep s'
      else match split sep s' with
           | [] => [String c EmptyString]
           | w :: ws => String c w :: ws
           end
  end.

(** [sep.join(parts)] *)
Fixpoint join (sep : string) (parts : list string) : string :=
  match parts with
  | [] => EmptyString
  | [w] => w
  | w :: ws => w +:+ sep +:+ join sep ws
  end.

(** [needle in s] *)
Fixpoint contains (needle s : string) : bool :=
  startswith needle s ||
  match s with
  | EmptyString => false
  | String _ s' => contains needle s'
  end.

(** [c in s] for one character *)
Fixpoint has_char (c : ascii) (s : string) : bool :=
  match s with
  | EmptyString => false
  | String a s' => Ascii.eqb a c || has_char c s'
  end.

(** Every character of [s] is white space. *)
Fixpoint all_space (s : string) : bool :=
  match s with
  | EmptyString => true
  | String c s' => isspace c && all_space s'
  end.

End Str.

(** ** data_handler.py *)

(** One element of the ["countries"] / ["states"] arrays of the JSON data
    files: an object with a ["name"] and a ["capital"] string. *)
Record CapitalEntry := { name : string; capital : string }.

Record DataHandler := {
  countries : list CapitalEntry;
  states : list CapitalEntry
}.

Section DataHandler.
Variable self : DataHandler.

(** The [for ... in ...: if ...lower() == ..._lower: return ...] loop. *)
Fixpoint first_match (entries : list CapitalEntry) (name_lower : string)
  : option string :=
  match entries with
  | [] => None
  | entry :: rest =>
      if String.eqb (Str.lower (name entry)) name_lower
      then Some (capital entry)
      else first_match rest name_lower
  end.

Definition find_country_capital (country_name : string) : option string :=
  let country_name_lower := Str.strip (Str.lower country_name) in
  first_match (countries self) country_name_lower.

Definition find_state_capital (state_name : string) : option string :=
  let state_name_lower := Str.strip (Str.lower state_name) in
  first_match (states self) state_name_lower.

(** [if capital:] is false both for [None] and for the empty string. *)
Definition truthy_opt (o : option string) : bool :=
  match o with Some s => truthy_str s | None => false end.

Definition find_capital (query : string) : option string :=
  let capital := find_country_capital query in
  if truthy_opt capital then capital
  else
    let capital := find_state_capital query in
    if truthy_opt capital then capital
    else None.

Definition get_all_countries : list string := map name (countries self).
Definition get_all_states : list string := map name (states self).

End DataHandler.

(** ** bedrock_client.py: the intent-response parser *)

Definition not_capital_query : dict :=
  {[ "is_capital_query" := VBool false; "entity" := VNone; "error" := VNone ]}.

Definition capital_query (query_type entity : string) : dict :=
  {[ "is_capital_query" := VBool true;
     "query_type" := VStr query_type;
     "entity" := VStr entity;
     "error" := VNone ]}.

Definition _parse_intent_response (response : string) : dict :=
  let response := Str.strip response in
  if Str.startswith "CAPITAL_QUERY:" response then
    let parts := Str.split ":" response in
    if (3 <=? length parts)%nat then
      match parts with
      | _ :: query_type :: rest =>
          let entity := Str.join ":" rest in
          capital_query query_type (Str.strip entity)
      | _ => not_capital_query
      end
    else not_capital_query
  else not_capital_query.

(** ** audio_converter.py: format detection *)

Module AudioConverter.

Definition b (s : string) : bytes := String.list_byte_of_string s.

(** [data.startswith(prefix)] on bytes *)
Fixpoint startswith (prefix data : bytes) : bool :=
  match prefix, data with
  | [], _ => true
  | x :: prefix', y :: data' =>
      if Byte.eqb x y then startswith prefix' data' else false
  | _ :: _, [] => false
  end.

(** [data[lo:hi]] for [0 <= lo <= hi]: clipped to the length, never raises. *)
Definition slice (lo hi : nat) (data : bytes) : bytes :=
  take (hi - lo) (drop lo data).

(** [x == y] on bytes *)
Fixpoint bytes_eqb (x y : bytes) : bool :=
  match x, y with
  | [], [] => true
  | a :: x', c :: y' => Byte.eqb a c && bytes_eqb x' y'
  | _, _ => false
  end.

Definition detect_audio_format (audio_data : bytes) : string :=
  if startswith (b "RIFF") audio_data
     && bytes_eqb (slice 8 12 audio_data) (b "WAVE") then "wav"
  else if startswith (b "ID3") audio_data
          || startswith [Byte.xff; Byte.xfb] audio_data then "mp3"
  else if startswith [Byte.x1a; Byte.x45; Byte.xdf; Byte.xa3] audio_data then "webm"
  else if startswith (b "OggS") audio_data then "ogg"
  else "webm".

End AudioConverter.

(** ** config.py *)

Record Config := {
  AWS_ACCESS_KEY_ID : option string;
  AWS_SECRET_ACCESS_KEY : option string;
  TRANSCRIPTION_MODE : string;
  ENABLE_STREAMING_FALLBACK : bool;
  STREAMING_TIMEOUT : Z;
  UNSUPPORTED_QUERY_RESPONSE : string
}.

(** The class attributes of [Config] when no environment variable is set. *)
Definition default_Config : Config := {|
  AWS_ACCESS_KEY_ID := None;
  AWS_SECRET_ACCESS_KEY := None;
  TRANSCRIPTION_MODE := "streaming";
  ENABLE_STREAMING_FALLBACK := true;
  STREAMING_TIMEOUT := 30;
  UNSUPPORTED_QUERY_RESPONSE :=
    "I'm sorry, but I can only provide information about country and state capitals. For other questions, this information is not available."
|}.

(** [not Config.X] for an optional string setting *)
Definition unset (o : option string) : bool := negb (truthy_opt o).

(** ** The outside world

    Everything the server does not compute itself (AWS SDK calls, pydub,
    the file system, the clock, the event loop) is an oracle of the
    [world]; each use is recorded in the [log] of the [state].  The
    streaming client is seen from the orchestrator: a call that invokes the
    two callbacks some number of times and then returns a dict (or raises).
    Clock readings are the doubles [time.time()] returns, and their
    difference is the rounded difference of IEEE 754 binary64. *)

Inductive raised (A : Type) : Type :=
| Returns (a : A)
| Raises (msg : string).
Arguments Returns {A} a.
Arguments Raises {A} msg.

(** The two closures handed to the streaming client. *)
Inductive callback : Type :=
| OnTranscription (text : string)
| OnError (error : string).

(** [TranscriptionJobStatus], with the optional [FailureReason]. *)
Inductive job_status : Type :=
| COMPLETED
| FAILED (FailureReason : option string)
| IN_PROGRESS.

Record world := {
  config : Config;
  (** pydub, then ffmpeg: [None] when both fail *)
  pydub_convert : bytes -> string -> option bytes;
  (** [StreamingTranscribeClient.start_streaming_transcription]: the
      callbacks it invokes, then the dict it returns (or what it raises) *)
  start_streaming_transcription : list bytes -> list callback * raised dict;
  (** callbacks run by the event loop during the k-th [asyncio.sleep(0.1)] *)
  sleep_callbacks : nat -> list callback;
  (** [input_stream.end_stream()] of an active live session *)
  end_stream : raised unit;
  (** the k-th reading of [time.time()], in seconds *)
  time_time : nat -> float;
  tempfile_write : raised unit;
  upload_file : raised unit;
  start_transcription_job : raised unit;
  (** the k-th [get_transcription_job] of a job *)
  get_transcription_job : nat -> raised job_status;
  (** [requests.get(uri).json()['results']['transcripts'][0]['transcript']] *)
  fetch_transcript : raised string;
  delete_object : raised unit;
  os_unlink : raised unit;
  (** Bedrock [invoke_model] on the intent prompt built around the text *)
  invoke_intent_model : value -> raised string;
  (** Bedrock [invoke_model] on the response prompt *)
  invoke_response_model : string -> string -> string -> raised string;
  (** Polly [synthesize_speech(...)['AudioStream'].read()] *)
  polly_synthesize : value -> raised bytes
}.

(** What a run leaves in the log: calls into the streaming client, the
    sleeps of the wait loop (with the elapsed time read just before), entry
    into the bucket path and its calls, and the calls of the later stages. *)
Inductive event : Type :=
| EvStartStreaming
| EvStopLive
| EvEndStream
| EvSleep (elapsed : float)
| EvBucket
| EvTempfile
| EvUpload
| EvStartJob
| EvGetJob
| EvPollSleep
| EvFetchTranscript
| EvDeleteObject
| EvUnlink
| EvInvokeIntent
| EvInvokeResponse
| EvSynthesize.

Record state := {
  log : list event;
  clock_reads : nat;
  sleeps : nat;
  active_stream : bool
}.

Definition initial_state : state :=
  {| log := []; clock_reads := 0; sleeps := 0; active_stream := false |}.

Definition add_log (e : event) (s : state) : state :=
  {| log := log s ++ [e]; clock_reads := clock_reads s;
     sleeps := sleeps s; active_stream := active_stream s |}.

Definition tick_clock (s : state) : state :=
  {| log := log s; clock_reads := S (clock_reads s);
     sleeps := sleeps s; active_stream := active_stream s |}.

Definition tick_sleep (s : state) : state :=
  {| log := log s; clock_reads := clock_reads s;
     sleeps := S (sleeps s); active_stream := active_stream s |}.

Definition set_active_stream (a : bool) (s : state) : state :=
  {| log := log s; clock_reads := clock_reads s;
     sleeps := sleeps s; active_stream := a |}.

(** ** A state-and-exception monad for the coroutines *)

Inductive outcome (A : Type) : Type :=
| Val (a : A)
| Exn (msg : string)
| OutOfFuel.
Arguments Val {A} a.
Arguments Exn {A} msg.
Arguments OutOfFuel {A}.

Definition M (A : Type) : Type := state -> outcome A * state.

#[global] Instance M_ret : MRet M := fun A a s => (Val a, s).

#[global] Instance M_bind : MBind M := fun A B f m s =>
  match m s with
  | (Val a, s') => f a s'
  | (Exn e, s') => (Exn e, s')
  | (OutOfFuel, s') => (OutOfFuel, s')
  end.

Definition raise {A} (msg : string) : M A := fun s => (Exn msg, s).

Definition out_of_fuel {A} : M A := fun s => (OutOfFuel, s).

(** [try: body except Exception as e: handler(str(e))] *)
Definition try_except {A} (body : M A) (handler : string -> M A) : M A :=
  fun s =>
    match body s with
    | (Exn e, s') => handler e s'
    | r => r
    end.

(** [try: body finally: cleanup]: a raising cleanup replaces the outcome. *)
Definition try_finally {A} (body : M A) (cleanup : M unit) : M A :=
  fun s =>
    match body s with
    | (OutOfFuel, s') => (OutOfFuel, s')
    | (r, s') =>
        match cleanup s' with
        | (Val _, s'') => (r, s'')
        | (Exn e, s'') => (Exn e, s'')
        | (OutOfFuel, s'') => (OutOfFuel, s'')
        end
    end.

Definition emit (e : event) : M unit := fun s => (Val (), add_log e s).

(** A call into an SDK or the operating system. *)
Definition extern {A} (e : event) (r : raised A) : M A :=
  fun s =>
    (match r with Returns a => Val a | Raises msg => Exn msg end, add_log e s).

Definition read_state {A} (f : state -> A) : M A := fun s => (Val (f s), s).

Definition modify (f : state -> state) : M unit := fun s => (Val (), f s).

(** [d[k]]: a missing key raises [KeyError], whose [str] is the quoted key. *)
Definition getitem (d : dict) (k : string) : M value :=
  match d !! k with
  | Some v => mret v
  | None => raise ("'" +:+ k +:+ "'")
  end.

(** ** streaming_transcribe_client.py and transcribe_client.py *)

(** [x > n] for a float [x] and an int [n]: Python compares the two by
    their exact values, with no rounding of [n]; a NaN is greater than
    nothing.  A finite double is [m * 2 ^ e] for its integer mantissa [m]. *)
Definition float_gt_int (x : float) (n : Z) : bool :=
  match Prim2SF x with
  | S754_nan => false
  | S754_infinity negative => negb negative
  | S754_zero _ => (n <? 0)%Z
  | S754_finite negative m e =>
      let m := if negative then Z.neg m else Z.pos m in
      if (0 <=? e)%Z then (n <? m * 2 ^ e)%Z else (n * 2 ^ (- e) <? m)%Z
  end.

(** [not pcm_audio] *)
Definition no_pcm (o : option bytes) : bool :=
  match o with
  | Some (_ :: _) => false
  | _ => true
  end.

Definition failure (error : value) : dict :=
  {[ "success" := VBool false; "error" := error; "transcription" := VNone ]}.

Section TranscribeClient.
Variable w : world.
(** Bound on the iterations of each [while] loop. *)
Variable fuel : nat.

Let Config := config w.

(** [AudioConverter.convert_to_pcm] *)
Definition convert_to_pcm (audio_data : bytes) (input_format : string)
  : option bytes :=
  if String.eqb input_format "wav"
     && AudioConverter.startswith (AudioConverter.b "RIFF") audio_data
     && (44 <? length audio_data)%nat
  then Some (drop 44 audio_data)
  else pydub_convert w audio_data input_format.

Definition on_transcription (transcription_result : dict) (text : string) : dict :=
  <["completed" := VBool true]> (<["text" := VStr text]> transcription_result).

Definition on_error (transcription_result : dict) (error : string) : dict :=
  <["completed" := VBool true]> (<["error" := VStr error]> transcription_result).

Definition fire (transcription_result : dict) (cbs : list callback) : dict :=
  foldl (fun d cb =>
           match cb with
           | OnTranscription text => on_transcription d text
           | OnError error => on_error d error
           end) transcription_result cbs.

(** [StreamingTranscribeClient.stop_live_transcription] *)
Definition stop_live_transcription : M dict :=
  emit EvStopLive;;
  try_except
    (active ← read_state active_stream;
     if active : bool then
       extern EvEndStream (end_stream w);;
       modify (set_active_stream false);;
       mret ({[ "success" := VBool true;
                "message" := VStr "Live transcription session stopped" ]} : dict)
     else
       mret ({[ "success" := VBool false;
                "error" := VStr "No active session to stop" ]} : dict))
    (fun e => mret ({[ "success" := VBool false; "error" := VStr e ]} : dict)).

(** [time.time()] *)
Definition time_now : M float :=
  now ← read_state (fun s => time_time w (clock_reads s));
  modify tick_clock;;
  mret now.

(** [await asyncio.sleep(0.1)] in the wait loop: the event loop may run
    callbacks on the shared [transcription_result] meanwhile. *)
Definition asyncio_sleep (elapsed : float) (transcription_result : dict) : M dict :=
  emit (EvSleep elapsed);;
  cbs ← read_state (fun s => sleep_callbacks w (sleeps s));
  modify tick_sleep;;
  mret (fire transcription_result cbs).

(** The [while True:] polling loop of [_transcribe_audio]; [k] counts the
    polls made so far. *)
Fixpoint poll_job (n : nat) (k : nat) : M string :=
  match n with
  | O => out_of_fuel
  | S n' =>
      status ← extern EvGetJob (get_transcription_job w k);
      match status with
      | COMPLETED =>
          transcription ← extern EvFetchTranscript (fetch_transcript w);
          try_except (extern EvDeleteObject (delete_object w))
                     (fun _ => mret ());;
          mret transcription
      | FAILED reason =>
          let error_message :=
            match reason with Some r => r | None => "Unknown error" end in
          raise ("Transcription job failed: " +:+ error_message)
      | IN_PROGRESS =>
          emit EvPollSleep;;
          poll_job n' (S k)
      end
  end.

Definition _transcribe_audio (audio_data : bytes) : M string :=
  try_except
    (extern EvTempfile (tempfile_write w);;
     try_finally
       (if unset (AWS_ACCESS_KEY_ID Config) || unset (AWS_SECRET_ACCESS_KEY Config)
        then mret "This is a test transcription. Please configure AWS credentials for real transcription."
        else
          try_except
            (extern EvUpload (upload_file w);;
             extern EvStartJob (start_transcription_job w);;
             poll_job fuel 0)
            (fun e =>
               if Str.contains "NoSuchBucket" e then
                 mret "S3 bucket not found. Please create the bucket or check configuration."
               else if Str.contains "AccessDenied" e then
                 mret "Access denied. Please check AWS credentials and permissions."
               else mret ("Transcription failed: " +:+ e)))
       (extern EvUnlink (os_unlink w)))
    (fun e => raise e).

Definition _transcribe_audio_bucket (audio_data : bytes) : M dict :=
  emit EvBucket;;
  try_except
    (transcription_result ← _transcribe_audio audio_data;
     mret ({[ "success" := VBool true;
              "transcription" := VStr transcription_result;
              "note" := VStr "Bucket-based transcription completed." ]} : dict))
    (fun e => mret (failure (VStr e))).

(** The chunks yielded by the [audio_stream] generator. *)
Fixpoint chunks (n : nat) (chunk_size : nat) (data : bytes) : list bytes :=
  match n, data with
  | _, [] => []
  | O, _ => []
  | S n', _ => take chunk_size data :: chunks n' chunk_size (drop chunk_size data)
  end.

Definition audio_stream (pcm_audio : bytes) : list bytes :=
  chunks (length pcm_audio) (1024 * 8) pcm_audio.

Definition timeout_error : dict :=
  failure (VStr "Streaming transcription timeout").

(** The body of [if time.time() - start_time > timeout:] in the loop. *)
Definition on_timeout (audio_data : bytes) : M (dict + dict) :=
  stop_live_transcription;;
  if ENABLE_STREAMING_FALLBACK Config then
    r ← _transcribe_audio_bucket audio_data;
    mret (inl r)
  else mret (inl timeout_error).

(** [while not transcription_result["completed"]: ...]: [inl] is a
    [return] from inside the loop, [inr] the dict when the loop ends. *)
Fixpoint wait_loop (n : nat) (audio_data : bytes) (start_time : float)
    (transcription_result : dict) : M (dict + dict) :=
  completed ← getitem transcription_result "completed";
  if truthy completed then mret (inr transcription_result)
  else
    match n with
    | O => out_of_fuel
    | S n' =>
        now ← time_now;
        if float_gt_int (now - start_time)%float (STREAMING_TIMEOUT Config) then
          on_timeout audio_data
        else
          result' ← asyncio_sleep (now - start_time)%float transcription_result;
          wait_loop n' audio_data start_time result'
    end.

Definition _transcribe_audio_streaming (audio_data : bytes) : M dict :=
  try_except
    (if unset (AWS_ACCESS_KEY_ID Config) || unset (AWS_SECRET_ACCESS_KEY Config) then
       if ENABLE_STREAMING_FALLBACK Config then _transcribe_audio_bucket audio_data
       else mret (failure (VStr "AWS credentials not configured"))
     else
       let audio_format := AudioConverter.detect_audio_format audio_data in
       let pcm_audio := convert_to_pcm audio_data audio_format in
       if no_pcm pcm_audio then
         if ENABLE_STREAMING_FALLBACK Config then _transcribe_audio_bucket audio_data
         else mret (failure (VStr "Failed to convert audio to PCM format"))
       else
         let transcription_result : dict :=
           {[ "text" := VStr ""; "completed" := VBool false ]} in
         let session :=
           start_streaming_transcription w (audio_stream (default [] pcm_audio)) in
         stream_result ← extern EvStartStreaming session.2;
         let transcription_result := fire transcription_result session.1 in
         if negb (truthy_get stream_result "success") then
           if ENABLE_STREAMING_FALLBACK Config then _transcribe_audio_bucket audio_data
           else mret (failure (get_default stream_result "error"
                                 (VStr "Streaming transcription failed")))
         else
           start_time ← time_now;
           waited ← wait_loop fuel audio_data start_time transcription_result;
           match waited with
           | inl r => mret r
           | inr transcription_result =>
               stop_live_transcription;;
               match transcription_result !! "error" with
               | Some error =>
                   if ENABLE_STREAMING_FALLBACK Config then
                     _transcribe_audio_bucket audio_data
                   else mret (failure error)
               | None =>
                   text ← getitem transcription_result "text";
                   mret ({[ "success" := VBool true;
                            "transcription" := text;
                            "note" := VStr "Streaming transcription completed successfully." ]} : dict)
               end
           end)
    (fun e =>
       if ENABLE_STREAMING_FALLBACK Config then _transcribe_audio_bucket audio_data
       else mret (failure (VStr e))).

Definition transcribe_audio_bytes (audio_data : bytes) : M dict :=
  try_except
    (if (length audio_data <? 100)%nat then
       mret (failure (VStr "Audio data too small or invalid"))
     else if String.eqb (TRANSCRIPTION_MODE Config) "streaming" then
       _transcribe_audio_streaming audio_data
     else _transcribe_audio_bucket audio_data)
    (fun e => mret (failure (VStr e))).

End TranscribeClient.

(** ** bedrock_client.py, polly_client.py and voice_agent.py *)

Section VoiceAgent.
Variable w : world.
Variable fuel : nat.
Variable data_handler : DataHandler.

Let Config := config w.

(** [BedrockClient.analyze_intent] *)
Definition analyze_intent (text : value) : M dict :=
  try_except
    (completion ← extern EvInvokeIntent (invoke_intent_model w text);
     mret (_parse_intent_response completion))
    (fun e => mret ({[ "is_capital_query" := VBool false;
                       "entity" := VNone;
                       "error" := VStr e ]} : dict)).

(** [BedrockClient.generate_response]: the prompt is built (with
    [query_type.lower()]) before the [try]. *)
Definition generate_response (query_type : value) (entity capital : string)
  : M string :=
  match query_type with
  | VStr query_type =>
      try_except
        (completion ← extern EvInvokeResponse
                        (invoke_response_model w (Str.lower query_type) entity capital);
         mret (Str.strip completion))
        (fun _ => mret ("The capital of " +:+ entity +:+ " is " +:+ capital +:+ "."))
  | _ => raise "object has no attribute 'lower'"
  end.

(** [PollyClient.synthesize_speech_bytes] *)
Definition synthesize_speech_bytes (text : value) : M dict :=
  try_except
    (audio_bytes ← extern EvSynthesize (polly_synthesize w text);
     mret ({[ "success" := VBool true;
              "audio_bytes" := VBytes audio_bytes;
              "voice_id" := VStr "Joanna";
              "text" := text ]} : dict))
    (fun e => mret ({[ "success" := VBool false;
                       "error" := VStr e;
                       "audio_bytes" := VNone ]} : dict)).

Definition opt_str (o : option string) : value :=
  match o with Some s => VStr s | None => VNone end.

Definition process_text_input (text : value) : M dict :=
  try_except
    (intent_result ← analyze_intent text;
     if truthy_get intent_result "error" then
       error ← getitem intent_result "error";
       mret ({[ "response" := VStr "I'm sorry, I'm having trouble processing your request right now.";
                "success" := VBool false;
                "error" := error ]} : dict)
     else if truthy_get intent_result "is_capital_query" then
       let entity := get intent_result "entity" in
       let query_type := get intent_result "query_type" in
       if truthy entity then
         match entity with
         | VStr entity_name =>
             let capital := find_capital data_handler entity_name in
             if truthy_opt capital then
               response ← generate_response query_type entity_name (default "" capital);
               mret ({[ "response" := VStr response;
                        "success" := VBool true;
                        "query_type" := query_type;
                        "entity" := entity;
                        "capital" := opt_str capital ]} : dict)
             else
               mret ({[ "response" := VStr ("I'm sorry, I don't have information about the capital of "
                                            +:+ entity_name +:+ ".");
                        "success" := VBool true;
                        "query_type" := query_type;
                        "entity" := entity;
                        "capital" := VNone ]} : dict)
         | _ => raise "object has no attribute 'lower'"
         end
       else
         mret ({[ "response" := VStr "I'm sorry, I couldn't understand which country or state you're asking about.";
                  "success" := VBool true;
                  "query_type" := VStr "unknown";
                  "entity" := VNone;
                  "capital" := VNone ]} : dict)
     else
       mret ({[ "response" := VStr (UNSUPPORTED_QUERY_RESPONSE Config);
                "success" := VBool true;
                "query_type" := VStr "other";
                "entity" := VNone;
                "capital" := VNone ]} : dict))
    (fun e =>
       mret ({[ "response" := VStr "I'm sorry, I encountered an error processing your request.";
                "success" := VBool false;
                "error" := VStr e ]} : dict)).

Definition couldnt_understand : string :=
  "I'm sorry, I couldn't understand your voice input.".

Definition couldnt_transcribe : string :=
  "I'm sorry, I couldn't transcribe your voice input.".

Definition process_voice_input (audio_data : bytes) : M dict :=
  try_except
    (transcribe_result ← transcribe_audio_bytes w fuel audio_data;
     if negb (truthy_get transcribe_result "success") then
       mret ({[ "response" := VStr couldnt_understand;
                "success" := VBool false;
                "error" := get_default transcribe_result "error"
                             (VStr "Transcription failed") ]} : dict)
     else
       let transcribed_text := get transcribe_result "transcription" in
       if negb (truthy transcribed_text) then
         mret ({[ "response" := VStr couldnt_transcribe;
                  "success" := VBool false;
                  "error" := VStr "No transcription result" ]} : dict)
       else
         text_result ← process_text_input transcribed_text;
         if negb (truthy_get text_result "success") then mret text_result
         else
           let response_text :=
             get_default text_result "response"
               (VStr "I'm sorry, I couldn't process your request.") in
           polly_result ← synthesize_speech_bytes response_text;
           if negb (truthy_get polly_result "success") then
             mret ({[ "response" := response_text;
                      "success" := VBool true;
                      "audio_bytes" := VNone;
                      "error" := VStr "Speech synthesis failed" ]} : dict)
           else
             mret ({[ "response" := response_text;
                      "success" := VBool true;
                      "audio_bytes" := get polly_result "audio_bytes";
                      "transcribed_text" := transcribed_text;
                      "query_type" := get text_result "query_type";
                      "entity" := get text_result "entity";
                      "capital" := get text_result "capital" ]} : dict))
    (fun e =>
       mret ({[ "response" := VStr "I'm sorry, I encountered an error processing your voice input.";
                "success" := VBool false;
                "error" := VStr e ]} : dict)).

End VoiceAgent.

(** ** Auxiliary definitions used in the statements *)

(** The streaming session of an input that gets as far as the streaming
    client: credentials configured and a non-empty PCM conversion. *)
Definition streaming_attempt (w : world) (audio_data : bytes)
  : option (list callback * raised dict) :=
  if unset (AWS_ACCESS_KEY_ID (config w)) || unset (AWS_SECRET_ACCESS_KEY (config w))
  then None
  else
    let pcm_audio :=
      convert_to_pcm w audio_data (AudioConverter.detect_audio_format audio_data) in
    if no_pcm pcm_audio then None
    else Some (start_streaming_transcription w (audio_stream (default [] pcm_audio))).

(** The argument of the last [on_error] call, if any. *)
Fixpoint last_error (cbs : list callback) : option string :=
  match cbs with
  | [] => None
  | cb :: rest =>
      match last_error rest with
      | Some e => Some e
      | None => match cb with OnError e => Some e | OnTranscription _ => None end
      end
  end.

(** The ways the streaming path fails short of a timeout, with the error
    each one carries: the three failures of the streaming attempt itself
    and the two guards in front of it. *)
Inductive streaming_fails (w : world) (audio_data : bytes) : value -> Prop :=
| Missing_credentials :
    unset (AWS_ACCESS_KEY_ID (config w)) || unset (AWS_SECRET_ACCESS_KEY (config w))
    = true ->
    streaming_fails w audio_data (VStr "AWS credentials not configured")
| Conversion_failure :
    unset (AWS_ACCESS_KEY_ID (config w)) || unset (AWS_SECRET_ACCESS_KEY (config w))
    = false ->
    no_pcm (convert_to_pcm w audio_data
              (AudioConverter.detect_audio_format audio_data)) = true ->
    streaming_fails w audio_data (VStr "Failed to convert audio to PCM format")
| Session_start_failure cbs stream_result :
    streaming_attempt w audio_data = Some (cbs, Returns stream_result) ->
    truthy_get stream_result "success" = false ->
    streaming_fails w audio_data
      (get_default stream_result "error" (VStr "Streaming transcription failed"))
| Raised_exception cbs msg :
    streaming_attempt w audio_data = Some (cbs, Raises msg) ->
    streaming_fails w audio_data (VStr msg)
| In_flight_error cbs stream_result error :
    streaming_attempt w audio_data = Some (cbs, Returns stream_result) ->
    truthy_get stream_result "success" = true ->
    last_error cbs = Some error ->
    streaming_fails w audio_data (VStr error).

(** Events of the bucket path. *)
Definition bucket_event (e : event) : bool :=
  match e with
  | EvBucket | EvTempfile | EvUpload | EvStartJob | EvGetJob | EvPollSleep
  | EvFetchTranscript | EvDeleteObject | EvUnlink => true
  | _ => false
  end.

(** Events of the stages after transcription. *)
Definition downstream_event (e : event) : bool :=
  match e with
  | EvInvokeIntent | EvInvokeResponse | EvSynthesize => true
  | _ => false
  end.

(** [s'] is [s] with more events logged, all of them satisfying [P]. *)
Definition log_grows (P : event -> Prop) (s s' : state) : Prop :=
  exists pre, log s' = log s ++ pre /\ Forall P pre.

(** Every run of [m] only logs events satisfying [P]. *)
Definition logs_only {A} (P : event -> Prop) (m : M A) : Prop :=
  forall s, log_grows P s (m s).2.

(** A sleep of the wait loop begun no later than [timeout] after the start. *)
Definition within (timeout : Z) (e : event) : Prop :=
  match e with
  | EvSleep elapsed => float_gt_int elapsed timeout = false
  | _ => True
  end.

(** What the transcription client may log: no event of a later stage, and
    sleeps only within the timeout. *)
Definition transcription_event (timeout : Z) (e : event) : Prop :=
  downstream_event e = false /\ within timeout e.

(** A world with the given configuration, streaming session, clock, upload
    and job behaviour, Bedrock completion and Polly outcome; everything else
    succeeds. *)
Definition world_with (cfg : Config) (session : list callback * raised dict)
    (clock : nat -> float) (upload : raised unit) (job : nat -> raised job_status)
    (completion : raised string) (speech : raised bytes) : world :=
  {| config := cfg;
     pydub_convert := fun audio_data _ => Some audio_data;
     start_streaming_transcription := fun _ => session;
     sleep_callbacks := fun _ => [];
     end_stream := Returns ();
     time_time := clock;
     tempfile_write := Returns ();
     upload_file := upload;
     start_transcription_job := Returns ();
     get_transcription_job := job;
     fetch_transcript := Returns "what is the capital of france";
     delete_object := Returns ();
     os_unlink := Returns ();
     invoke_intent_model := fun _ => completion;
     invoke_response_model := fun _ _ capital => Returns ("It is " +:+ capital +:+ ".");
     polly_synthesize := fun _ => speech |}.

Definition configured (mode : string) (fallback : bool) : Config :=
  {| AWS_ACCESS_KEY_ID := Some "AKIAEXAMPLE";
     AWS_SECRET_ACCESS_KEY := Some "secret";
     TRANSCRIPTION_MODE := mode;
     ENABLE_STREAMING_FALLBACK := fallback;
     STREAMING_TIMEOUT := 30;
     UNSUPPORTED_QUERY_RESPONSE := UNSUPPORTED_QUERY_RESPONSE default_Config |}.


(** A clock read at 0.1 s, 30.1 s and 31.5 s, as the doubles nearest to
    these numbers: their values are a little above 0.1 and 30.1, and the
    difference of the first two rounds to 30 exactly. *)
Definition rounding_clock (n : nat) : float :=
  match n with
  | O => 0x1.999999999999ap-4%float
  | S O => 0x1.e19999999999ap+4%float
  | S (S _) => 31.5%float
  end.

Definition session_ok : dict :=
  {[ "success" := VBool true;
     "message" := VStr "Streaming transcription completed";
     "session_id" := VStr "0" ]}.

(** Bucket mode, credentials configured, and an S3 bucket that does not exist. *)
Definition missing_bucket_world : world :=
  world_with (configured "bucket" true) ([], Returns session_ok) (fun _ => 0%float)
    (Raises "An error occurred (NoSuchBucket) when calling the PutObject operation")
    (fun _ => Returns COMPLETED) (Returns "OTHER_QUERY") (Returns []).

(** Bucket mode, credentials configured, and a job that ends FAILED. *)
Definition failed_job_world : world :=
  world_with (configured "bucket" true) ([], Returns session_ok) (fun _ => 0%float)
    (Returns ()) (fun _ => Returns (FAILED (Some "Unsupported media format")))
    (Returns "OTHER_QUERY") (Returns []).

(** 200 bytes of audio with no known signature. *)
Definition some_audio : bytes := repeat Byte.x00 200.

(** Streaming mode without fallback, a session that starts and never calls
    back, and the given clock. *)
Definition silent_world (clock : nat -> float) : world :=
  world_with (configured "streaming" false) ([], Returns session_ok) clock
    (Returns ()) (fun _ => Returns COMPLETED) (Returns "OTHER_QUERY") (Returns []).


(** Tables on which the unqualified lookup property fails. *)
Definition padded_table : DataHandler :=
  {| countries := [ {| name := "France "; capital := "Paris" |} ]; states := [] |}.

Definition duplicate_table : DataHandler :=
  {| countries := [ {| name := "Congo"; capital := "Brazzaville" |};
                    {| name := "congo"; capital := "Kinshasa" |} ];
     states := [] |}.

Definition blank_capital_table : DataHandler :=
  {| countries := [ {| name := "Atlantis"; capital := "" |} ];
     states := [ {| name := "Atlantis"; capital := "Poseidonis" |} ] |}.

Definition france_table : DataHandler :=
  {| countries := [ {| name := "France"; capital := "Paris" |} ]; states := [] |}.

(** The three response shapes the prompt asks the model for. *)
Definition matches_grammar (response : string) : bool :=
  String.eqb response "OTHER_QUERY"
  || Str.startswith "CAPITAL_QUERY:COUNTRY:" response
  || Str.startswith "CAPITAL_QUERY:STATE:" response.

(** What the parser accepts: the prefix, a colon-free second field, a colon,
    and anything after it. *)
Definition accepted (response query_type entity : string) : Prop :=
  Str.has_char ":" query_type = false
  /\ response = "CAPITAL_QUERY:" +:+ query_type +:+ ":" +:+ entity.


(** * Properties *)

(** ** Strings *)

Module StrFacts.
Import Str.

Lemma append_nil_l s : EmptyString +:+ s = s.
Proof. reflexivity. Qed.

Lemma append_cons c s t : String c s +:+ t = String c (s +:+ t).
Proof. reflexivity. Qed.

Lemma lower_char_idem c : lower_char (lower_char c) = lower_char c.
Proof. destruct c as [[] [] [] [] [] [] [] []]; reflexivity. Qed.

Lemma isspace_lower_char c : isspace (lower_char c) = isspace c.
Proof. destruct c as [[] [] [] [] [] [] [] []]; reflexivity. Qed.

Lemma lower_idem s : lower (lower s) = lower s.
Proof.
  induction s as [|c s IH]; simpl; [reflexivity|].
  now rewrite lower_char_idem, IH.
Qed.

Lemma lower_app s t : lower (s +:+ t) = lower s +:+ lower t.
Proof. induction s as [|c s IH]; simpl; [reflexivity|]. now rewrite IH. Qed.

Lemma all_space_lower s : all_space (lower s) = all_space s.
Proof.
  induction s as [|c s IH]; simpl; [reflexivity|].
  now rewrite isspace_lower_char, IH.
Qed.

Lemma lstrip_lower s : lstrip (lower s) = lower (lstrip s).
Proof.
  induction s as [|c s IH]; simpl; [reflexivity|].
  rewrite isspace_lower_char. destruct (isspace c); [exact IH | reflexivity].
Qed.

Lemma rstrip_lower s : rstrip (lower s) = lower (rstrip s).
Proof.
  induction s as [|c s IH]; simpl; [reflexivity|].
  rewrite IH, isspace_lower_char.
  destruct (rstrip s); simpl; [destruct (isspace c)|]; reflexivity.
Qed.

Lemma strip_lower s : strip (lower s) = lower (strip s).
Proof. unfold strip. now rewrite lstrip_lower, rstrip_lower. Qed.

Lemma lstrip_all_space ws : all_space ws = true -> lstrip ws = EmptyString.
Proof.
  induction ws as [|c ws IH]; simpl; [reflexivity|].
  intros [Hc Hws]%andb_true_iff. rewrite Hc. auto.
Qed.

Lemma rstrip_all_space ws : all_space ws = true -> rstrip ws = EmptyString.
Proof.
  induction ws as [|c ws IH]; simpl; [reflexivity|].
  intros [Hc Hws]%andb_true_iff. now rewrite (IH Hws), Hc.
Qed.

Lemma lstrip_app_space ws s : all_space ws = true -> lstrip (ws +:+ s) = lstrip s.
Proof.
  induction ws as [|c ws IH]; simpl; [reflexivity|].
  intros [Hc Hws]%andb_true_iff. rewrite Hc. auto.
Qed.

Lemma rstrip_app_space s ws : all_space ws = true -> rstrip (s +:+ ws) = rstrip s.
Proof.
  intros Hws. induction s as [|c s IH]; simpl.
  - now apply rstrip_all_space.
  - now rewrite IH.
Qed.

Lemma strip_app_space_r s ws : all_space ws = true -> strip (s +:+ ws) = strip s.
Proof.
  intros Hws. unfold strip. induction s as [|c s IH]; simpl.
  - rewrite append_nil_l. now rewrite (lstrip_all_space _ Hws).
  - destruct (isspace c); [exact IH|].
    change (String c (s +:+ ws)) with (String c s +:+ ws).
    now apply rstrip_app_space.
Qed.

(** Padding with white space on both sides is invisible to [strip]. *)
Lemma strip_pad a s c :
  all_space a = true -> all_space c = true -> strip (a +:+ s +:+ c) = strip s.
Proof.
  intros Ha Hc. unfold strip at 1. rewrite (lstrip_app_space _ _ Ha).
  now apply strip_app_space_r.
Qed.

Lemma lstrip_head s c t : lstrip s = String c t -> isspace c = false.
Proof.
  induction s as [|a s IH]; simpl; [discriminate|].
  destruct (isspace a) eqn:Ha; [exact IH|].
  intros [= -> _]. exact Ha.
Qed.

Lemma rstrip_idem s : rstrip (rstrip s) = rstrip s.
Proof.
  induction s as [|c s IH]; simpl; [reflexivity|].
  destruct (rstrip s) as [|a r] eqn:Hr.
  - destruct (isspace c) eqn:Hc; simpl; [reflexivity|]. now rewrite Hc.
  - simpl. simpl in IH. now rewrite IH.
Qed.

Lemma lstrip_rstrip_head c t :
  isspace c = false -> lstrip (rstrip (String c t)) = rstrip (String c t).
Proof.
  intros Hc. simpl. destruct (rstrip t); rewrite ?Hc; simpl; now rewrite Hc.
Qed.

Lemma strip_idem s : strip (strip s) = strip s.
Proof.
  unfold strip. destruct (lstrip s) as [|c t] eqn:Hs; [reflexivity|].
  rewrite (lstrip_rstrip_head _ _ (lstrip_head _ _ _ Hs)).
  apply rstrip_idem.
Qed.

Lemma startswith_app p s : startswith p (p +:+ s) = true.
Proof.
  induction p as [|c p IH]; simpl; [reflexivity|].
  now rewrite Ascii.eqb_refl.
Qed.

Lemma startswith_inv p s : startswith p s = true -> exists r, s = p +:+ r.
Proof.
  revert s. induction p as [|c p IH]; intros s; simpl.
  - intros _. now exists s.
  - destruct s as [|a s]; [discriminate|].
    destruct (Ascii.eqb c a) eqn:E; [|discriminate].
    apply Ascii.eqb_eq in E as ->. intros [r ->]%IH. now exists r.
Qed.

Lemma split_nonempty sep s : split sep s <> [].
Proof.
  destruct s as [|c s]; simpl; [discriminate|].
  destruct (Ascii.eqb c sep); [discriminate|].
  destruct (split sep s); discriminate.
Qed.

(** A separator-free head is the first field. *)
Lemma split_head sep t e :
  has_char sep t = false ->
  split sep (t +:+ String sep e) = t :: split sep e.
Proof.
  induction t as [|c t IH]; simpl.
  - intros _. now rewrite Ascii.eqb_refl.
  - intros [Hc Ht]%orb_false_iff. rewrite Hc, (IH Ht). reflexivity.
Qed.


Lemma join_split sep s : join (String sep EmptyString) (split sep s) = s.
Proof.
  induction s as [|c s IH]; simpl; [reflexivity|].
  destruct (Ascii.eqb c sep) eqn:E.
  - apply Ascii.eqb_eq in E as ->.
    destruct (split sep s) as [|w ws] eqn:Hs; [now apply split_nonempty in Hs|].
    simpl in *. now rewrite IH.
  - destruct (split sep s) as [|w ws] eqn:Hs; [now apply split_nonempty in Hs|].
    destruct ws; simpl in *; now rewrite <- IH.
Qed.

Lemma split_fields sep s w : w ∈ split sep s -> has_char sep w = false.
Proof.
  revert w. induction s as [|c s IH]; simpl; intros w.
  - intros ->%list_elem_of_singleton. reflexivity.
  - destruct (Ascii.eqb c sep) eqn:E.
    + intros [->|H]%elem_of_cons; [reflexivity | now apply IH].
    + destruct (split sep s) as [|v vs] eqn:Hs.
      * intros ->%list_elem_of_singleton. simpl. now rewrite E.
      * intros [->|H]%elem_of_cons.
        -- simpl. rewrite E. apply IH. now left.
        -- apply IH. now right.
Qed.

End StrFacts.

(** ** data_handler.py: capital lookup *)

Section DataHandlerFacts.
Variable dh : DataHandler.

Lemma first_match_None entries k :
  (forall e, e ∈ entries -> Str.lower (name e) <> k) ->
  first_match entries k = None.
Proof.
  induction entries as [|e entries IH]; intros H; simpl; [reflexivity|].
  destruct (String.eqb_spec (Str.lower (name e)) k) as [E|_].
  - exfalso. apply (H e); [left | exact E].
  - apply IH. intros e' He'. apply H. now right.
Qed.

Lemma first_match_Some entries k e :
  e ∈ entries ->
  Str.lower (name e) = k ->
  (forall e', e' ∈ entries -> Str.lower (name e') = k -> capital e' = capital e) ->
  first_match entries k = Some (capital e).
Proof.
  induction entries as [|e0 entries IH]; intros Hin Hk Huniq; simpl.
  - inversion Hin.
  - destruct (String.eqb_spec (Str.lower (name e0)) k) as [E|N].
    + f_equal. apply Huniq; [left | exact E].
    + apply elem_of_cons in Hin as [->|Hin]; [congruence|].
      apply IH; [exact Hin | exact Hk |].
      intros e' He'. apply Huniq. now right.
Qed.

(** The lookup only sees the lower-cased, stripped query. *)
Lemma find_capital_normalised q q' :
  Str.strip (Str.lower q') = Str.strip (Str.lower q) ->
  find_capital dh q' = find_capital dh q.
Proof.
  intros H. unfold find_capital, find_country_capital, find_state_capital.
  now rewrite H.
Qed.

End DataHandlerFacts.

(** C5, as stated, fails: a stored name with surrounding white space is never
    found (the query is stripped, the stored name is not); of two entries
    whose names agree up to case the first wins; an empty capital counts as
    not found and the state table is consulted instead; and a query that
    differs from every stored name even up to case (here by its padding) is
    still found after stripping. *)
Lemma find_capital_country_table_counterexample :
  ({| name := "France "; capital := "Paris" |} ∈ countries padded_table
   /\ find_capital padded_table "France " = None)
  /\ ({| name := "congo"; capital := "Kinshasa" |} ∈ countries duplicate_table
      /\ find_capital duplicate_table "congo" = Some "Brazzaville")
  /\ ({| name := "Atlantis"; capital := "" |} ∈ countries blank_capital_table
      /\ find_capital blank_capital_table "Atlantis" = Some "Poseidonis")
  /\ ((forall e, e ∈ countries france_table ++ states france_table ->
                 Str.lower (name e) <> Str.lower " France ")
      /\ find_capital france_table " France " = Some "Paris").
Proof.
  repeat split; try reflexivity.
  - left.
  - right. left.
  - left.
  - intros e ->%list_elem_of_singleton. discriminate.
Qed.

(** C5 (amended): a country entry whose lower-cased name carries no
    surrounding white space, whose capital is not empty, and which agrees on
    the capital with every country entry of the same name up to case, is found
    with exactly its stored capital; a query whose lower-cased, stripped form
    is the lower-cased name of no entry of either table is not found. *)
Theorem find_capital_country_table (dh : DataHandler) :
  (forall e,
      e ∈ countries dh ->
      Str.strip (Str.lower (name e)) = Str.lower (name e) ->
      capital e <> "" ->
      (forall e', e' ∈ countries dh ->
                  Str.lower (name e') = Str.lower (name e) ->
                  capital e' = capital e) ->
      find_capital dh (name e) = Some (capital e))
  /\ (forall q,
         (forall e, e ∈ countries dh ++ states dh ->
                    Str.lower (name e) <> Str.strip (Str.lower q)) ->
         find_capital dh q = None).
Proof.
  split.
  - intros e Hin Hstrip Hcap Huniq.
    unfold find_capital, find_country_capital. rewrite Hstrip.
    rewrite (first_match_Some _ _ e Hin eq_refl Huniq). simpl.
    destruct (capital e); [contradiction | reflexivity].
  - intros q Habs.
    unfold find_capital, find_country_capital, find_state_capital.
    rewrite !first_match_None; [reflexivity | |];
      intros e He; apply Habs, elem_of_app; [now right | now left].
Qed.

Lemma find_capital_country_table_witness :
  find_capital france_table "France" = Some "Paris"
  /\ find_capital france_table "Spain" = None.
Proof.
  destruct (find_capital_country_table france_table) as [Hfound Habsent].
  split.
  - apply (Hfound {| name := "France"; capital := "Paris" |}).
    + left.
    + reflexivity.
    + discriminate.
    + intros e' ->%list_elem_of_singleton _. reflexivity.
  - apply Habsent. intros e ->%list_elem_of_singleton. discriminate.
Defined.

(** C6: for any tables, the lookup is invariant under a change of letter case
    of the query ([q'] is any string with the same lower-casing as [q], for
    instance [q.lower()]) and under adding or removing surrounding white
    space; "france", " France " and "FRANCE" all give the same result. *)
Theorem find_capital_case_and_whitespace_invariant
    (dh : DataHandler) (q q' a c : string) :
  Str.lower q' = Str.lower q ->
  Str.all_space a = true ->
  Str.all_space c = true ->
  find_capital dh (Str.lower q) = find_capital dh q
  /\ find_capital dh q' = find_capital dh q
  /\ find_capital dh (a +:+ q +:+ c) = find_capital dh q
  /\ find_capital dh (Str.strip q) = find_capital dh q
  /\ find_capital dh " France " = find_capital dh "france"
  /\ find_capital dh "FRANCE" = find_capital dh "france".
Proof.
  intros Hq' Ha Hc. repeat split; apply find_capital_normalised;
    try reflexivity.
  - now rewrite StrFacts.lower_idem.
  - now rewrite Hq'.
  - rewrite !StrFacts.lower_app. apply StrFacts.strip_pad;
      now rewrite StrFacts.all_space_lower.
  - now rewrite <- StrFacts.strip_lower, StrFacts.strip_idem, StrFacts.strip_lower.
Qed.

Lemma find_capital_case_and_whitespace_invariant_witness :
  find_capital france_table (Str.lower "France") = find_capital france_table "France"
  /\ find_capital france_table "FRANCE" = find_capital france_table "France"
  /\ find_capital france_table (" " +:+ "France" +:+ " ") = find_capital france_table "France"
  /\ find_capital france_table (Str.strip "France") = find_capital france_table "France"
  /\ find_capital france_table " France " = find_capital france_table "france"
  /\ find_capital france_table "FRANCE" = find_capital france_table "france".
Proof.
  apply (find_capital_case_and_whitespace_invariant france_table "France" "FRANCE" " " " ");
    reflexivity.
Defined.

(** ** bedrock_client.py: the intent grammar *)

Lemma parse_accepted response query_type entity :
  accepted (Str.strip response) query_type entity ->
  _parse_intent_response response = capital_query query_type (Str.strip entity).
Proof.
  intros [Hq Hr]. unfold _parse_intent_response. rewrite Hr.
  rewrite StrFacts.startswith_app.
  change ("CAPITAL_QUERY:" +:+ query_type +:+ ":" +:+ entity)
    with ("CAPITAL_QUERY" +:+ String ":" (query_type +:+ String ":" entity)).
  rewrite (StrFacts.split_head ":" "CAPITAL_QUERY") by reflexivity.
  rewrite (StrFacts.split_head ":" query_type) by exact Hq.
  destruct (Str.split ":" entity) as [|x xs] eqn:Hs;
    [now apply StrFacts.split_nonempty in Hs|].
  cbn [length Nat.leb]. rewrite <- Hs, StrFacts.join_split. reflexivity.
Qed.

Lemma parse_rejected response :
  _parse_intent_response response = not_capital_query
  \/ exists query_type entity, accepted (Str.strip response) query_type entity.
Proof.
  unfold _parse_intent_response.
  destruct (Str.startswith "CAPITAL_QUERY:" (Str.strip response)) eqn:Hp; [|now left].
  apply StrFacts.startswith_inv in Hp as [r Hr]. rewrite Hr.
  change ("CAPITAL_QUERY:" +:+ r) with ("CAPITAL_QUERY" +:+ String ":" r).
  rewrite (StrFacts.split_head ":" "CAPITAL_QUERY") by reflexivity.
  destruct (Str.split ":" r) as [|t [|u us]] eqn:Hs; [now left | now left |].
  right. exists t, (Str.join ":" (u :: us)). split.
  - apply (StrFacts.split_fields ":" r). rewrite Hs. left.
  - change ("CAPITAL_QUERY" +:+ String ":" r) with ("CAPITAL_QUERY:" +:+ r).
    f_equal. rewrite <- (StrFacts.join_split ":" r), Hs. reflexivity.
Qed.

(** C7, as stated, fails: a response outside the prompt's grammar (second
    field neither COUNTRY nor STATE) is still parsed as a capital query. *)
Lemma parse_intent_response_counterexample :
  matches_grammar "CAPITAL_QUERY:PLANET:Mars" = false
  /\ _parse_intent_response "CAPITAL_QUERY:PLANET:Mars" = capital_query "PLANET" "Mars"
  /\ _parse_intent_response "CAPITAL_QUERY:PLANET:Mars" !! "is_capital_query"
     = Some (VBool true).
Proof. repeat split; vm_compute; reflexivity. Qed.

(** C7 (amended): the two well-formed examples parse as the spec says, the
    example with a missing segment is not a capital query, and in general the
    parser is total and decides by shape alone: a stripped response made of
    the prefix [CAPITAL_QUERY:], a colon-free field, a colon and a rest is a
    capital query whose type is that field (whatever it is) and whose entity
    is the stripped rest; every other response is not a capital query. *)
Theorem parse_intent_response_shape :
  _parse_intent_response "CAPITAL_QUERY:COUNTRY:France" = capital_query "COUNTRY" "France"
  /\ _parse_intent_response "OTHER_QUERY" = not_capital_query
  /\ _parse_intent_response "CAPITAL_QUERY:France" = not_capital_query
  /\ capital_query "COUNTRY" "France" !! "is_capital_query" = Some (VBool true)
  /\ not_capital_query !! "is_capital_query" = Some (VBool false)
  /\ forall response,
       (exists query_type entity,
           accepted (Str.strip response) query_type entity
           /\ _parse_intent_response response
              = capital_query query_type (Str.strip entity))
       \/ ((forall query_type entity,
               ~ accepted (Str.strip response) query_type entity)
           /\ _parse_intent_response response = not_capital_query).
Proof.
  repeat split; try (vm_compute; reflexivity).
  intros response.
  destruct (parse_rejected response) as [Hno | (t & e & Hacc)].
  - right. split; [|exact Hno].
    intros t e Hacc. apply parse_accepted in Hacc. rewrite Hno in Hacc.
    apply (f_equal (fun d : dict => d !! "is_capital_query")) in Hacc.
    discriminate Hacc.
  - left. exists t, e. split; [exact Hacc | now apply parse_accepted].
Qed.

(** ** audio_converter.py: format detection *)

Module AudioFacts.
Import AudioConverter.

Lemma startswith_take prefix data :
  startswith prefix data = true <-> take (length prefix) data = prefix.
Proof.
  revert data. induction prefix as [|x prefix IH]; intros data; simpl.
  - now rewrite take_0.
  - destruct data as [|y data]; simpl; [split; discriminate|].
    destruct (Byte.eqb x y) eqn:E.
    + apply Byte.byte_dec_bl in E as ->. rewrite IH. split; congruence.
    + split; [discriminate|]. intros [= -> _].
      rewrite (Byte.byte_dec_lb eq_refl) in E. discriminate.
Qed.

Lemma bytes_eqb_eq x y : bytes_eqb x y = true <-> x = y.
Proof.
  revert y. induction x as [|a x IH]; intros [|c y]; simpl;
    try (split; [discriminate|discriminate]); [tauto|].
  rewrite andb_true_iff, IH. split.
  - intros [E ->]. now apply Byte.byte_dec_bl in E as ->.
  - intros [= -> ->]. split; [now apply Byte.byte_dec_lb | reflexivity].
Qed.

End AudioFacts.

(** C9: format detection is a total function with four possible answers, and
    bytes that carry none of the wav, mp3 or ogg signatures (whether or not
    they carry the webm one) are reported as webm. *)
Theorem detect_audio_format_default (audio_data : bytes) :
  AudioConverter.detect_audio_format audio_data ∈ ["wav"; "mp3"; "webm"; "ogg"]
  /\ (~ (take 4 audio_data = AudioConverter.b "RIFF"
         /\ take 4 (drop 8 audio_data) = AudioConverter.b "WAVE") ->
      take 3 audio_data <> AudioConverter.b "ID3" ->
      take 2 audio_data <> [Byte.xff; Byte.xfb] ->
      take 4 audio_data <> AudioConverter.b "OggS" ->
      AudioConverter.detect_audio_format audio_data = "webm").
Proof.
  unfold AudioConverter.detect_audio_format, AudioConverter.slice.
  split.
  - repeat match goal with |- context [if ?c then _ else _] => destruct c end;
      set_solver.
  - intros Hwav Hid3 Hmp3 Hogg.
    destruct (AudioConverter.startswith (AudioConverter.b "RIFF") audio_data
              && AudioConverter.bytes_eqb (take (12 - 8) (drop 8 audio_data))
                   (AudioConverter.b "WAVE")) eqn:E1.
    { exfalso. apply Hwav. apply andb_true_iff in E1 as [E1 E2].
      apply AudioFacts.startswith_take in E1.
      apply AudioFacts.bytes_eqb_eq in E2. now split. }
    destruct (AudioConverter.startswith (AudioConverter.b "ID3") audio_data) eqn:E2.
    { exfalso. apply Hid3. now apply AudioFacts.startswith_take in E2. }
    destruct (AudioConverter.startswith [Byte.xff; Byte.xfb] audio_data) eqn:E3.
    { exfalso. apply Hmp3. now apply AudioFacts.startswith_take in E3. }
    cbn [orb].
    destruct (AudioConverter.startswith
                [Byte.x1a; Byte.x45; Byte.xdf; Byte.xa3] audio_data); [reflexivity|].
    destruct (AudioConverter.startswith (AudioConverter.b "OggS") audio_data) eqn:E4;
      [|reflexivity].
    exfalso. apply Hogg. now apply AudioFacts.startswith_take in E4.
Qed.

Lemma detect_audio_format_default_witness :
  AudioConverter.detect_audio_format (AudioConverter.b "hello, world")
    ∈ ["wav"; "mp3"; "webm"; "ogg"]
  /\ AudioConverter.detect_audio_format (AudioConverter.b "hello, world") = "webm".
Proof.
  destruct (detect_audio_format_default (AudioConverter.b "hello, world")) as [Hin Hdef].
  split; [exact Hin|].
  apply Hdef.
  - intros [H _]. discriminate H.
  - discriminate.
  - discriminate.
  - discriminate.
Defined.

(** ** The coroutine monad: logs and exceptions *)

Ltac munfold :=
  unfold mbind, M_bind, mret, M_ret, try_except, try_finally, emit, extern,
    read_state, modify, raise, out_of_fuel, getitem in *.

Section LogFacts.
Context {A B : Type}.
Variable P : event -> Prop.

Lemma log_grows_refl s : log_grows P s s.
Proof. exists []. split; [now rewrite app_nil_r | constructor]. Qed.

Lemma log_grows_trans s1 s2 s3 :
  log_grows P s1 s2 -> log_grows P s2 s3 -> log_grows P s1 s3.
Proof.
  intros (p & H1 & F1) (q & H2 & F2). exists (p ++ q). split.
  - now rewrite H2, H1, app_assoc.
  - now apply Forall_app.
Qed.

Lemma log_grows_add e s : P e -> log_grows P s (add_log e s).
Proof. intros He. exists [e]. split; [reflexivity | now repeat constructor]. Qed.

Lemma log_grows_same s s' : log s' = log s -> log_grows P s s'.
Proof. intros H. exists []. split; [now rewrite app_nil_r | constructor]. Qed.

Lemma logs_only_ret (a : A) : logs_only P (mret a : M A).
Proof. intros s. apply log_grows_refl. Qed.

Lemma logs_only_raise msg : logs_only P (raise msg : M A).
Proof. intros s. apply log_grows_refl. Qed.

Lemma logs_only_out_of_fuel : logs_only P (out_of_fuel : M A).
Proof. intros s. apply log_grows_refl. Qed.

Lemma logs_only_bind (m : M A) (f : A -> M B) :
  logs_only P m -> (forall a, logs_only P (f a)) -> logs_only P (m ≫= f).
Proof.
  intros Hm Hf s. specialize (Hm s). munfold.
  destruct (m s) as [[a|e|] s1]; simpl in *; [|exact Hm|exact Hm].
  eapply log_grows_trans; [exact Hm | apply Hf].
Qed.

Lemma logs_only_try_except (m : M A) (h : string -> M A) :
  logs_only P m -> (forall e, logs_only P (h e)) -> logs_only P (try_except m h).
Proof.
  intros Hm Hh s. specialize (Hm s). munfold.
  destruct (m s) as [[a|e|] s1]; simpl in *; [exact Hm| |exact Hm].
  eapply log_grows_trans; [exact Hm | apply Hh].
Qed.

Lemma logs_only_try_finally (m : M A) (c : M unit) :
  logs_only P m -> logs_only P c -> logs_only P (try_finally m c).
Proof.
  intros Hm Hc s. specialize (Hm s). munfold.
  destruct (m s) as [[a|e|] s1]; simpl in *; [| |exact Hm];
    specialize (Hc s1); destruct (c s1) as [[[]|e'|] s2]; simpl in *;
    eapply log_grows_trans; eauto.
Qed.

Lemma logs_only_extern e (r : raised A) : P e -> logs_only P (extern e r).
Proof. intros He s. munfold. simpl. now apply log_grows_add. Qed.

Lemma logs_only_read (f : state -> A) : logs_only P (read_state f).
Proof. intros s. apply log_grows_refl. Qed.

Lemma logs_only_modify f :
  (forall s, log (f s) = log s) -> logs_only P (modify f).
Proof. intros Hf s. apply log_grows_same. simpl. apply Hf. Qed.

End LogFacts.

Lemma logs_only_emit P e : P e -> logs_only P (emit e).
Proof. intros He s. now apply log_grows_add. Qed.

Lemma log_grows_weaken (P Q : event -> Prop) s s' :
  (forall e, P e -> Q e) -> log_grows P s s' -> log_grows Q s s'.
Proof.
  intros HPQ (p & H & F). exists p. split; [exact H|].
  eapply Forall_impl; eauto.
Qed.

Lemma logs_only_weaken {A} (P Q : event -> Prop) (m : M A) :
  (forall e, P e -> Q e) -> logs_only P m -> logs_only Q m.
Proof. intros HPQ Hm s. eapply log_grows_weaken; eauto. Qed.

Ltac logs_step :=
  first
    [ apply logs_only_bind; [|intros ?]
    | apply logs_only_try_except; [|intros ?]
    | apply logs_only_try_finally
    | apply logs_only_ret
    | apply logs_only_raise
    | apply logs_only_out_of_fuel
    | apply logs_only_read
    | apply logs_only_modify; reflexivity
    | apply logs_only_emit; reflexivity
    | apply logs_only_extern; reflexivity ].

(** ** transcribe_client.py *)

Section TranscribeFacts.
Variable w : world.
Variable fuel : nat.

(** The bucket path converts every exception into a result. *)
Lemma bucket_never_raises audio_data s msg s' :
  _transcribe_audio_bucket w fuel audio_data s <> (Exn msg, s').
Proof.
  unfold _transcribe_audio_bucket. munfold. simpl.
  destruct (_transcribe_audio w fuel audio_data (add_log EvBucket s))
    as [[a|e|] s1]; discriminate.
Qed.

Lemma try_except_bucket audio_data (h : string -> M dict) s :
  try_except (_transcribe_audio_bucket w fuel audio_data) h s
  = _transcribe_audio_bucket w fuel audio_data s.
Proof.
  unfold try_except.
  destruct (_transcribe_audio_bucket w fuel audio_data s) as [[a|e|] s1] eqn:E;
    try reflexivity.
  now apply bucket_never_raises in E.
Qed.

Lemma poll_job_logs n k : logs_only (fun e => bucket_event e = true) (poll_job w n k).
Proof.
  revert k. induction n as [|n IH]; intros k; simpl; [apply logs_only_out_of_fuel|].
  logs_step; [logs_step|].
  destruct a; repeat logs_step. apply IH.
Qed.

Lemma bucket_logs audio_data :
  logs_only (fun e => bucket_event e = true) (_transcribe_audio_bucket w fuel audio_data).
Proof.
  unfold _transcribe_audio_bucket, _transcribe_audio.
  repeat logs_step.
  destruct (unset _ || unset _); repeat logs_step.
  - apply poll_job_logs.
  - repeat match goal with |- context [if ?c then _ else _] => destruct c end;
      logs_step.
Qed.

Lemma stop_live_logs :
  logs_only (fun e => e = EvStopLive \/ e = EvEndStream) (stop_live_transcription w).
Proof.
  unfold stop_live_transcription.
  logs_step; [apply logs_only_emit; now left|].
  logs_step; [|logs_step].
  logs_step; [logs_step|]. destruct a0.
  - logs_step; [apply logs_only_extern; now right|]. repeat logs_step.
  - logs_step.
Qed.

(** Stopping never raises: it returns a dict. *)
Lemma stop_live_returns s :
  exists d s', stop_live_transcription w s = (Val d, s')
               /\ log_grows (fun e => e = EvStopLive \/ e = EvEndStream) s s'
               /\ exists post, log s' = log s ++ EvStopLive :: post.
Proof.
  pose proof (stop_live_logs s) as Hl.
  unfold stop_live_transcription in *. munfold. simpl in *.
  destruct (active_stream s); simpl in *.
  - destruct (end_stream w) as [[]|msg]; simpl in *; eexists _, _;
      (split; [reflexivity|]); (split; [exact Hl|]).
    + exists [EvEndStream]. simpl. now rewrite <- app_assoc.
    + exists [EvEndStream]. simpl. now rewrite <- app_assoc.
  - eexists _, _. split; [reflexivity|]. split; [exact Hl|]. now exists [].
Qed.



End TranscribeFacts.

(** C4: fewer than 100 bytes are rejected at once, whatever the mode: the
    result is the too-small failure and the state (hence the log of backend
    calls) is left as it was. *)
Theorem transcribe_audio_bytes_too_small
    (w : world) (fuel : nat) (audio_data : bytes) (s : state) :
  (length audio_data < 100)%nat ->
  transcribe_audio_bytes w fuel audio_data s
  = (Val (failure (VStr "Audio data too small or invalid")), s)
  /\ failure (VStr "Audio data too small or invalid") !! "success" = Some (VBool false)
  /\ failure (VStr "Audio data too small or invalid") !! "error"
     = Some (VStr "Audio data too small or invalid")
  /\ failure (VStr "Audio data too small or invalid") !! "transcription" = Some VNone.
Proof.
  intros Hlen. repeat split.
  unfold transcribe_audio_bytes. munfold.
  apply Nat.ltb_lt in Hlen. now rewrite Hlen.
Qed.

Lemma transcribe_audio_bytes_too_small_witness :
  transcribe_audio_bytes
    (world_with (configured "bucket" true) ([], Returns session_ok)
       (fun _ => 0%float) (Returns ()) (fun _ => Returns COMPLETED)
       (Returns "OTHER_QUERY") (Returns []))
    5 (AudioConverter.b "RIFF") initial_state
  = (Val (failure (VStr "Audio data too small or invalid")), initial_state).
Proof.
  apply transcribe_audio_bytes_too_small. simpl. lia.
Defined.

(** The polling loop has no bound of its own: it ends when a poll reports
    something other than a job still in progress. *)
Lemma poll_job_returns (w : world) (k : nat) : forall n j s,
  (forall i, (i < k)%nat -> get_transcription_job w (j + i) = Returns IN_PROGRESS) ->
  get_transcription_job w (j + k) <> Returns IN_PROGRESS ->
  (k < n)%nat ->
  exists s',
    (exists text, poll_job w n j s = (Val text, s'))
    \/ (exists msg, poll_job w n j s = (Exn msg, s')).
Proof.
  induction k as [|k IH]; intros n j s Hprog Hend Hn;
    (destruct n as [|n]; [lia|]); simpl; munfold; simpl.
  - rewrite Nat.add_0_r in Hend.
    destruct (get_transcription_job w j) as [[|reason|]|msg]; simpl.
    + destruct (fetch_transcript w); simpl; [|eauto].
      destruct (delete_object w) as [[]|]; simpl; eauto.
    + eauto.
    + congruence.
    + eauto.
  - pose proof (Hprog 0%nat ltac:(lia)) as H0. rewrite Nat.add_0_r in H0.
    rewrite H0. simpl.
    apply IH; [|now rewrite Nat.add_succ_comm | lia].
    intros i Hi. rewrite Nat.add_succ_comm. apply Hprog. lia.
Qed.

(** Given fuel beyond that poll, the bucket path returns a result. *)
Lemma bucket_returns
    (w : world) (fuel : nat) (audio_data : bytes) (s : state) (k : nat) :
  (forall i, (i < k)%nat -> get_transcription_job w i = Returns IN_PROGRESS) ->
  get_transcription_job w k <> Returns IN_PROGRESS ->
  (k < fuel)%nat ->
  exists d s', _transcribe_audio_bucket w fuel audio_data s = (Val d, s').
Proof.
  intros Hprog Hend Hfuel.
  unfold _transcribe_audio_bucket, _transcribe_audio. munfold. simpl.
  destruct (tempfile_write w) as [[]|]; simpl; [|eauto].
  destruct (unset _ || unset _).
  { destruct (os_unlink w) as [[]|]; simpl; eauto. }
  simpl. destruct (upload_file w) as [[]|]; simpl.
  2:{ repeat match goal with |- context [if ?c then _ else _] => destruct c end;
        destruct (os_unlink w) as [[]|]; simpl; eauto. }
  destruct (start_transcription_job w) as [[]|]; simpl.
  2:{ repeat match goal with |- context [if ?c then _ else _] => destruct c end;
        destruct (os_unlink w) as [[]|]; simpl; eauto. }
  destruct (poll_job_returns w k fuel 0
              (add_log EvStartJob (add_log EvUpload (add_log EvTempfile (add_log EvBucket s))))
              Hprog Hend Hfuel) as (s' & [(text & ->) | (msg & ->)]).
  - destruct (os_unlink w) as [[]|]; simpl; eauto.
  - repeat match goal with |- context [if ?c then _ else _] => destruct c end;
      destruct (os_unlink w) as [[]|]; simpl; eauto.
Qed.

Section StreamingFacts.
Variable w : world.
Variable fuel : nat.

Lemma fire_cons tr cb cbs :
  fire tr (cb :: cbs)
  = fire (match cb with
          | OnTranscription text => on_transcription tr text
          | OnError error => on_error tr error
          end) cbs.
Proof. reflexivity. Qed.

Lemma fire_keeps_completed cbs : forall tr : dict,
  tr !! "completed" = Some (VBool true) ->
  fire tr cbs !! "completed" = Some (VBool true).
Proof.
  induction cbs as [|cb cbs IH]; intros tr H; [exact H|].
  rewrite fire_cons. apply IH. destruct cb; apply lookup_insert_eq.
Qed.

(** Any callback marks the shared result as completed. *)
Lemma fire_completed cbs (tr : dict) :
  cbs <> [] -> fire tr cbs !! "completed" = Some (VBool true).
Proof.
  destruct cbs as [|cb cbs]; [congruence|]. intros _.
  rewrite fire_cons. apply fire_keeps_completed.
  destruct cb; apply lookup_insert_eq.
Qed.

(** The ["error"] key holds the argument of the last [on_error]. *)
Lemma fire_error cbs : forall tr : dict,
  fire tr cbs !! "error"
  = match last_error cbs with
    | Some e => Some (VStr e)
    | None => tr !! "error"
    end.
Proof.
  induction cbs as [|cb cbs IH]; intros tr; [reflexivity|].
  rewrite fire_cons, IH. simpl. destruct (last_error cbs); [reflexivity|].
  destruct cb; unfold on_transcription, on_error.
  - now rewrite !lookup_insert_ne by discriminate.
  - rewrite lookup_insert_ne by discriminate. apply lookup_insert_eq.
Qed.

Lemma last_error_nonempty cbs e : last_error cbs = Some e -> cbs <> [].
Proof. destruct cbs; [discriminate | congruence]. Qed.

Lemma wait_loop_completed n audio_data start_time (tr : dict) s :
  tr !! "completed" = Some (VBool true) ->
  wait_loop w fuel n audio_data start_time tr s = (Val (inr tr), s).
Proof. intros H. destruct n; simpl; munfold; now rewrite H. Qed.

Lemma streaming_never_raises audio_data s msg s' :
  _transcribe_audio_streaming w fuel audio_data s <> (Exn msg, s').
Proof.
  unfold _transcribe_audio_streaming, try_except.
  match goal with |- context [match ?b s with _ => _ end] => destruct (b s) as [[a|e|] s1] end;
    try discriminate.
  destruct (ENABLE_STREAMING_FALLBACK (config w)); [|discriminate].
  apply bucket_never_raises.
Qed.

Lemma transcribe_audio_bytes_streaming audio_data s :
  (100 <= length audio_data)%nat ->
  TRANSCRIPTION_MODE (config w) = "streaming" ->
  transcribe_audio_bytes w fuel audio_data s
  = _transcribe_audio_streaming w fuel audio_data s.
Proof.
  intros Hlen Hmode. unfold transcribe_audio_bytes.
  apply Nat.ltb_ge in Hlen. rewrite Hlen, Hmode. simpl.
  unfold try_except.
  destruct (_transcribe_audio_streaming w fuel audio_data s) as [[a|e|] s1] eqn:E;
    try reflexivity.
  now apply streaming_never_raises in E.
Qed.

End StreamingFacts.

Ltac enter_streaming H :=
  unfold _transcribe_audio_streaming; unfold streaming_attempt in H;
  cbv zeta in *;
  destruct (unset _ || unset _); [discriminate H|];
  destruct (no_pcm _); [discriminate H|];
  injection H as H; rewrite H.

Ltac bucket_cases :=
  match goal with
  | |- context [_transcribe_audio_bucket ?w ?f ?d ?st] =>
      let Eb := fresh "Eb" in
      destruct (_transcribe_audio_bucket w f d st) as [[?|?|] ?] eqn:Eb;
      [ reflexivity | now apply bucket_never_raises in Eb | reflexivity ]
  end.

(** C1: on the streaming path, when the streaming attempt fails (the session
    does not start, an error callback fires, or the client raises; also when
    credentials or PCM audio are missing), then with the fallback flag set the orchestrator's outcome is exactly that of the
    bucket path, entered after a prefix that contains no bucket event (so it
    returns as soon as the fuel outlasts the job's polling); with the flag
    cleared it returns the failure carrying the streaming error and logs
    no bucket event at all. *)
Theorem streaming_failure_fallback
    (w : world) (fuel : nat) (audio_data : bytes) (s : state) (error : value) :
  (100 <= length audio_data)%nat ->
  TRANSCRIPTION_MODE (config w) = "streaming" ->
  streaming_fails w audio_data error ->
  (ENABLE_STREAMING_FALLBACK (config w) = true ->
   exists s1,
     transcribe_audio_bytes w fuel audio_data s
     = _transcribe_audio_bucket w fuel audio_data s1
     /\ log_grows (fun e => bucket_event e = false) s s1
     /\ forall k,
          (forall i, (i < k)%nat -> get_transcription_job w i = Returns IN_PROGRESS) ->
          get_transcription_job w k <> Returns IN_PROGRESS ->
          (k < fuel)%nat ->
          exists d s', transcribe_audio_bytes w fuel audio_data s = (Val d, s'))
  /\ (ENABLE_STREAMING_FALLBACK (config w) = false ->
      exists s',
        transcribe_audio_bytes w fuel audio_data s = (Val (failure error), s')
        /\ failure error !! "success" = Some (VBool false)
        /\ failure error !! "error" = Some error
        /\ log_grows (fun e => bucket_event e = false) s s').
Proof.
  intros Hlen Hmode Hfail.
  rewrite (transcribe_audio_bytes_streaming _ _ _ _ Hlen Hmode).
  assert (Hret : forall s1,
             _transcribe_audio_streaming w fuel audio_data s
             = _transcribe_audio_bucket w fuel audio_data s1 ->
             forall k,
               (forall i, (i < k)%nat ->
                          get_transcription_job w i = Returns IN_PROGRESS) ->
               get_transcription_job w k <> Returns IN_PROGRESS ->
               (k < fuel)%nat ->
               exists d s',
                 _transcribe_audio_streaming w fuel audio_data s = (Val d, s')).
  { intros s1 -> k Hprog Hend Hfuel. eapply bucket_returns; eauto. }
  cut ((ENABLE_STREAMING_FALLBACK (config w) = true ->
        exists s1,
          _transcribe_audio_streaming w fuel audio_data s
          = _transcribe_audio_bucket w fuel audio_data s1
          /\ log_grows (fun e => bucket_event e = false) s s1)
       /\ (ENABLE_STREAMING_FALLBACK (config w) = false ->
           exists s',
             _transcribe_audio_streaming w fuel audio_data s
             = (Val (failure error), s')
             /\ failure error !! "success" = Some (VBool false)
             /\ failure error !! "error" = Some error
             /\ log_grows (fun e => bucket_event e = false) s s')).
  { intros [Hyes Hno]. split; [|exact Hno].
    intros Hfb. destruct (Hyes Hfb) as (s1 & Heq & Hlog).
    exists s1. split; [exact Heq|]. split; [exact Hlog|]. exact (Hret s1 Heq). }
  clear Hret.
  destruct Hfail as [Hcred | Hcred Hpcm | cbs d Hatt Hsucc | cbs msg Hatt
                     | cbs d err Hatt Hsucc Herr].
  - (* no credentials *)
    split; intros Hfb; unfold _transcribe_audio_streaming; cbv zeta;
      rewrite Hcred, Hfb.
    + rewrite try_except_bucket. exists s. split; [reflexivity | apply log_grows_refl].
    + exists s. repeat split. apply log_grows_refl.
  - (* no PCM audio *)
    split; intros Hfb; unfold _transcribe_audio_streaming; cbv zeta;
      rewrite Hcred, Hpcm, Hfb.
    + rewrite try_except_bucket. exists s. split; [reflexivity | apply log_grows_refl].
    + exists s. repeat split. apply log_grows_refl.
  - (* the session did not start *)
    split; intros Hfb; enter_streaming Hatt; rewrite Hfb; munfold; simpl;
      rewrite Hsucc; simpl.
    + exists (add_log EvStartStreaming s). split; [|now apply log_grows_add].
      bucket_cases.
    + eexists. repeat split. now apply log_grows_add.
  - (* the client raised *)
    split; intros Hfb; enter_streaming Hatt; rewrite Hfb; munfold; simpl.
    + eexists. split; [reflexivity|]. now apply log_grows_add.
    + eexists. repeat split. now apply log_grows_add.
  - (* an error callback fired while streaming *)
    pose proof (last_error_nonempty _ _ Herr) as Hne.
    destruct (stop_live_returns w
                (tick_clock (add_log EvStartStreaming s)))
      as (ds & s2 & Hstop & Hgrow & _).
    assert (Hg : log_grows (fun e => bucket_event e = false) s s2).
    { eapply log_grows_trans; [apply (log_grows_add _ EvStartStreaming); reflexivity|].
      eapply log_grows_weaken; [|exact Hgrow].
      now intros e [-> | ->]. }
    split; intros Hfb; enter_streaming Hatt; rewrite Hfb; munfold; simpl;
      rewrite Hsucc; simpl;
      rewrite (wait_loop_completed w fuel) by (now apply fire_completed);
      rewrite Hstop, fire_error, Herr.
    + exists s2. split; [|exact Hg]. bucket_cases.
    + eexists. repeat split. exact Hg.
Qed.

Lemma streaming_failure_fallback_witness :
  let w := world_with (configured "streaming" true)
             ([OnError "stream reset"], Returns session_ok)
             (fun _ => 0%float) (Returns ()) (fun _ => Returns COMPLETED)
             (Returns "OTHER_QUERY") (Returns []) in
  exists s1,
    transcribe_audio_bytes w 5 some_audio initial_state
    = _transcribe_audio_bucket w 5 some_audio s1
    /\ log_grows (fun e => bucket_event e = false) initial_state s1
    /\ forall k,
         (forall i, (i < k)%nat -> get_transcription_job w i = Returns IN_PROGRESS) ->
         get_transcription_job w k <> Returns IN_PROGRESS ->
         (k < 5)%nat ->
         exists d s', transcribe_audio_bytes w 5 some_audio initial_state = (Val d, s').
Proof.
  intros w.
  apply (streaming_failure_fallback w 5 some_audio initial_state (VStr "stream reset")).
  - simpl. lia.
  - reflexivity.
  - apply (In_flight_error w some_audio [OnError "stream reset"] session_ok);
      reflexivity.
  - reflexivity.
Defined.

(** ** The wait loop and its timeout *)

Section TimeoutFacts.
Variable w : world.
Variable fuel : nat.

Let T := STREAMING_TIMEOUT (config w).

Lemma bucket_logs_transcription audio_data :
  logs_only (transcription_event T) (_transcribe_audio_bucket w fuel audio_data).
Proof.
  eapply logs_only_weaken; [|apply bucket_logs].
  intros [] H; try discriminate H; now split.
Qed.

Lemma stop_live_logs_transcription :
  logs_only (transcription_event T) (stop_live_transcription w).
Proof.
  eapply logs_only_weaken; [|apply stop_live_logs].
  intros e [-> | ->]; now split.
Qed.

Lemma on_timeout_logs audio_data :
  logs_only (transcription_event T) (on_timeout w fuel audio_data).
Proof.
  unfold on_timeout. logs_step.
  - apply stop_live_logs_transcription.
  - destruct (ENABLE_STREAMING_FALLBACK _); [|logs_step].
    logs_step; [|logs_step]. apply bucket_logs_transcription.
Qed.

(** Whatever the clock and the callbacks do, the loop only starts a sleep
    after reading an elapsed time within the timeout. *)
Lemma wait_loop_logs n audio_data start_time : forall tr,
  logs_only (transcription_event T) (wait_loop w fuel n audio_data start_time tr).
Proof.
  induction n as [|n IH]; intros tr; simpl.
  - logs_step; [unfold getitem; destruct (tr !! "completed"); logs_step|].
    destruct (truthy a); logs_step.
  - logs_step; [unfold getitem; destruct (tr !! "completed"); logs_step|].
    destruct (truthy a); [logs_step|].
    logs_step; [unfold time_now; repeat logs_step|].
    destruct (float_gt_int _ _) eqn:E; [apply on_timeout_logs|].
    logs_step; [|apply IH].
    unfold asyncio_sleep. logs_step; [|repeat logs_step].
    apply logs_only_emit. split; [reflexivity | exact E].
Qed.

Lemma streaming_logs audio_data :
  logs_only (transcription_event T) (_transcribe_audio_streaming w fuel audio_data).
Proof.
  pose proof (bucket_logs_transcription audio_data) as Hb.
  pose proof stop_live_logs_transcription as Hs.
  unfold _transcribe_audio_streaming. cbv zeta.
  logs_step.
  2:{ destruct (ENABLE_STREAMING_FALLBACK _); [exact Hb | logs_step]. }
  destruct (unset _ || unset _).
  { destruct (ENABLE_STREAMING_FALLBACK _); [exact Hb | logs_step]. }
  destruct (no_pcm _).
  { destruct (ENABLE_STREAMING_FALLBACK _); [exact Hb | logs_step]. }
  logs_step; [apply logs_only_extern; now split|].
  destruct (negb _).
  { destruct (ENABLE_STREAMING_FALLBACK _); [exact Hb | logs_step]. }
  logs_step; [unfold time_now; repeat logs_step|].
  logs_step; [apply wait_loop_logs|].
  destruct a1 as [r|tr]; [logs_step|].
  logs_step; [exact Hs|].
  destruct (tr !! "error").
  { destruct (ENABLE_STREAMING_FALLBACK _); [exact Hb | logs_step]. }
  logs_step; [unfold getitem; destruct (tr !! "text"); logs_step | logs_step].
Qed.

(** No run of the orchestrator ever starts a sleep of the wait loop after
    the timeout has been read as exceeded. *)
Lemma transcribe_audio_bytes_logs audio_data :
  logs_only (transcription_event T) (transcribe_audio_bytes w fuel audio_data).
Proof.
  unfold transcribe_audio_bytes. logs_step; [|logs_step].
  destruct (_ <? _)%nat; [logs_step|].
  destruct (String.eqb _ _); [apply streaming_logs|].
  apply bucket_logs_transcription.
Qed.


End TimeoutFacts.


(** The elapsed time is the rounded difference of two doubles: on the clock
    0.1 s, 30.1 s, 31.5 s the second reading gives exactly 30, which is not
    beyond the timeout, so the loop sleeps once and leaves at the third. *)
Lemma wait_loop_rounds_as_doubles :
  (rounding_clock 1 - rounding_clock 0)%float = 30%float
  /\ transcribe_audio_bytes (silent_world rounding_clock) 5 some_audio initial_state
     = (Val timeout_error,
        {| log := [EvStartStreaming; EvSleep 30; EvStopLive];
           clock_reads := 3; sleeps := 1; active_stream := false |}).
Proof.
  split; vm_compute; reflexivity.
Qed.



(** ** The bucket path and service errors *)

(** With credentials configured and a working temporary file, a failing
    upload is turned into a transcript text, and the result says success. *)
Lemma bucket_upload_failure_is_success
    (w : world) (fuel : nat) (audio_data : bytes) (s : state) (msg : string) :
  unset (AWS_ACCESS_KEY_ID (config w)) = false ->
  unset (AWS_SECRET_ACCESS_KEY (config w)) = false ->
  tempfile_write w = Returns () ->
  os_unlink w = Returns () ->
  upload_file w = Raises msg ->
  exists text s',
    _transcribe_audio_bucket w fuel audio_data s
    = (Val {[ "success" := VBool true;
              "transcription" := VStr text;
              "note" := VStr "Bucket-based transcription completed." ]}, s')
    /\ log s' = log s ++ [EvBucket; EvTempfile; EvUpload; EvUnlink].
Proof.
  intros Hk Hs Ht Hu Hup.
  unfold _transcribe_audio_bucket, _transcribe_audio. munfold. simpl.
  rewrite Hk, Hs, Ht, Hup, Hu. simpl.
  destruct (Str.contains "NoSuchBucket" msg); [|destruct (Str.contains "AccessDenied" msg)];
    eexists _, _; (split; [reflexivity|]); simpl; now rewrite <- !app_assoc.
Qed.

(** C3 on the code: in bucket mode, a missing S3 bucket and a job that ends
    FAILED both come back as a result whose success field is true, with the
    error message in the transcription field and no error field. *)
Theorem bucket_service_errors_reported_as_success :
  let missing_bucket : dict :=
    {[ "success" := VBool true;
       "transcription" :=
         VStr "S3 bucket not found. Please create the bucket or check configuration.";
       "note" := VStr "Bucket-based transcription completed." ]} in
  let failed_job : dict :=
    {[ "success" := VBool true;
       "transcription" :=
         VStr "Transcription failed: Transcription job failed: Unsupported media format";
       "note" := VStr "Bucket-based transcription completed." ]} in
  transcribe_audio_bytes missing_bucket_world 5 some_audio initial_state
  = (Val missing_bucket,
     {| log := [EvBucket; EvTempfile; EvUpload; EvUnlink];
        clock_reads := 0; sleeps := 0; active_stream := false |})
  /\ transcribe_audio_bytes failed_job_world 5 some_audio initial_state
     = (Val failed_job,
        {| log := [EvBucket; EvTempfile; EvUpload; EvStartJob; EvGetJob; EvUnlink];
           clock_reads := 0; sleeps := 0; active_stream := false |})
  /\ missing_bucket !! "success" = Some (VBool true)
  /\ missing_bucket !! "error" = None
  /\ failed_job !! "success" = Some (VBool true)
  /\ failed_job !! "error" = None.
Proof.
  repeat split; vm_compute; reflexivity.
Qed.

(** ** voice_agent.py *)

Section VoiceFacts.
Variable w : world.
Variable fuel : nat.
Variable dh : DataHandler.

Lemma process_text_input_logs text :
  logs_only (fun e => e = EvInvokeIntent \/ e = EvInvokeResponse)
    (process_text_input w dh text).
Proof.
  unfold process_text_input, analyze_intent, generate_response.
  logs_step; [|logs_step].
  logs_step.
  - logs_step; [|logs_step]. logs_step; [|logs_step].
    apply logs_only_extern. now left.
  - destruct (truthy_get a "error").
    { logs_step; [unfold getitem; destruct (a !! "error"); logs_step | logs_step]. }
    destruct (truthy_get a "is_capital_query"); [|logs_step].
    destruct (truthy (get a "entity")); [|logs_step].
    destruct (get a "entity") as [| |entity|]; [logs_step|logs_step| |logs_step].
    destruct (truthy_opt _); [|logs_step].
    logs_step; [|logs_step].
    destruct (get a "query_type") as [| |qt|]; [logs_step|logs_step| |logs_step].
    logs_step; [|logs_step].
    logs_step; [|logs_step]. apply logs_only_extern. now right.
Qed.

(** The text flow always returns a dict with a response; a failed one
    also carries an error. *)
Lemma process_text_input_returns text s :
  exists d s',
    process_text_input w dh text s = (Val d, s')
    /\ is_Some (d !! "response")
    /\ (truthy_get d "success" = false -> is_Some (d !! "error")).
Proof.
  unfold process_text_input. munfold.
  destruct (analyze_intent w text s) as [[a|e|] s1] eqn:E.
  2:{ eexists _, _. split; [reflexivity|]. split; eexists; reflexivity. }
  2:{ exfalso. unfold analyze_intent in E. munfold. simpl in E.
      destruct (invoke_intent_model w text); discriminate E. }
  destruct (truthy_get a "error") eqn:Herr.
  { unfold truthy_get in Herr.
    destruct (a !! "error") as [v|] eqn:Hv; [|discriminate]. simpl.
    eexists _, _. split; [reflexivity|]. split; eexists; reflexivity. }
  destruct (truthy_get a "is_capital_query").
  2:{ eexists _, _. split; [reflexivity|]. split; [eexists; reflexivity|].
      intros H. discriminate H. }
  destruct (truthy (get a "entity")).
  2:{ eexists _, _. split; [reflexivity|]. split; [eexists; reflexivity|].
      intros H. discriminate H. }
  destruct (get a "entity") as [|?|entity|?];
    try (eexists _, _; split; [reflexivity|]; split; eexists; reflexivity).
  destruct (truthy_opt (find_capital dh entity)).
  2:{ eexists _, _. split; [reflexivity|]. split; [eexists; reflexivity|].
      intros H. discriminate H. }
  unfold generate_response. munfold.
  destruct (get a "query_type") as [|?|qt|?];
    try (eexists _, _; split; [reflexivity|]; split; eexists; reflexivity).
  simpl.
  destruct (invoke_response_model w (Str.lower qt) entity
              (default "" (find_capital dh entity))); simpl;
    eexists _, _; (split; [reflexivity|]); (split; [eexists; reflexivity|]);
    intros H; discriminate H.
Qed.

Lemma transcribe_no_downstream audio_data s :
  log_grows (fun e => downstream_event e = false) s
    (transcribe_audio_bytes w fuel audio_data s).2.
Proof.
  eapply log_grows_weaken; [|apply transcribe_audio_bytes_logs].
  now intros e [He _].
Qed.

End VoiceFacts.

(** C8: when the transcription result is not a success, the voice flow
    returns the [couldnt_understand] apology, not a success, with the
    transcription error (or "Transcription failed"); when it is a success
    with an empty transcription, it returns the [couldnt_transcribe]
    apology, not a success, with "No transcription result".  In both cases the
    flow ends in the state the transcription left, whose log has no intent or
    synthesis event.  When the text flow fails, its result (which carries an
    error) is returned as it is and no synthesis event is logged. *)
Theorem process_voice_input_short_circuits
    (w : world) (fuel : nat) (dh : DataHandler) (audio_data : bytes)
    (s s1 : state) (transcribe_result : dict) :
  transcribe_audio_bytes w fuel audio_data s = (Val transcribe_result, s1) ->
  log_grows (fun e => downstream_event e = false) s s1
  /\ (truthy_get transcribe_result "success" = false ->
      process_voice_input w fuel dh audio_data s
      = (Val {[ "response" := VStr "I'm sorry, I couldn't understand your voice input.";
                "success" := VBool false;
                "error" := get_default transcribe_result "error"
                             (VStr "Transcription failed") ]}, s1))
  /\ (truthy_get transcribe_result "success" = true ->
      truthy (get transcribe_result "transcription") = false ->
      process_voice_input w fuel dh audio_data s
      = (Val {[ "response" := VStr "I'm sorry, I couldn't transcribe your voice input.";
                "success" := VBool false;
                "error" := VStr "No transcription result" ]}, s1))
  /\ (truthy_get transcribe_result "success" = true ->
      truthy (get transcribe_result "transcription") = true ->
      forall text_result s2,
        process_text_input w dh (get transcribe_result "transcription") s1
        = (Val text_result, s2) ->
        truthy_get text_result "success" = false ->
        process_voice_input w fuel dh audio_data s = (Val text_result, s2)
        /\ is_Some (text_result !! "error")
        /\ log_grows (fun e => e <> EvSynthesize) s s2).
Proof.
  intros Htr. split.
  { pose proof (transcribe_no_downstream w fuel audio_data s) as H.
    now rewrite Htr in H. }
  split; [|split].
  - intros Hs. unfold process_voice_input. munfold. now rewrite Htr, Hs.
  - intros Hs Ht. unfold process_voice_input. munfold. now rewrite Htr, Hs, Ht.
  - intros Hs Ht text_result s2 Htext Hfail.
    split; [|split].
    + unfold process_voice_input. munfold. rewrite Htr, Hs, Ht. simpl.
      now rewrite Htext, Hfail.
    + destruct (process_text_input_returns w dh
                  (get transcribe_result "transcription") s1)
        as (d & s' & Hrun & _ & Herr).
      rewrite Htext in Hrun. injection Hrun as <- <-. now apply Herr.
    + eapply log_grows_trans.
      * eapply log_grows_weaken; [|apply (transcribe_no_downstream w fuel audio_data s)].
        intros e He ->. discriminate He.
      * rewrite Htr. simpl.
        pose proof (process_text_input_logs w dh
                      (get transcribe_result "transcription") s1) as H.
        rewrite Htext in H. eapply log_grows_weaken; [|exact H].
        intros e [-> | ->]; discriminate.
Qed.

Lemma process_voice_input_short_circuits_witness :
  let w := world_with (configured "bucket" true) ([], Returns session_ok)
             (fun _ => 0%float) (Returns ()) (fun _ => Returns COMPLETED)
             (Returns "OTHER_QUERY") (Returns []) in
  process_voice_input w 5 france_table (AudioConverter.b "RIFF") initial_state
  = (Val {[ "response" := VStr "I'm sorry, I couldn't understand your voice input.";
            "success" := VBool false;
            "error" := VStr "Audio data too small or invalid" ]}, initial_state).
Proof.
  intros w.
  destruct (process_voice_input_short_circuits w 5 france_table
              (AudioConverter.b "RIFF") initial_state initial_state
              (failure (VStr "Audio data too small or invalid")) eq_refl)
    as (_ & Hfail & _ & _).
  apply Hfail. reflexivity.
Defined.

(** C10: when transcription and the text flow succeed and speech synthesis
    does not, the voice result is still a success: it carries the text
    flow's response, a null [audio_bytes] and the error "Speech synthesis
    failed". *)
Theorem process_voice_input_synthesis_failure
    (w : world) (fuel : nat) (dh : DataHandler) (audio_data : bytes)
    (s s1 s2 s3 : state) (transcribe_result text_result polly_result : dict) :
  let transcribed_text := get transcribe_result "transcription" in
  let response_text :=
    get_default text_result "response"
      (VStr "I'm sorry, I couldn't process your request.") in
  transcribe_audio_bytes w fuel audio_data s = (Val transcribe_result, s1) ->
  truthy_get transcribe_result "success" = true ->
  truthy transcribed_text = true ->
  process_text_input w dh transcribed_text s1 = (Val text_result, s2) ->
  truthy_get text_result "success" = true ->
  synthesize_speech_bytes w response_text s2 = (Val polly_result, s3) ->
  truthy_get polly_result "success" = false ->
  exists response,
    text_result !! "response" = Some response
    /\ process_voice_input w fuel dh audio_data s
       = (Val {[ "response" := response;
                 "success" := VBool true;
                 "audio_bytes" := VNone;
                 "error" := VStr "Speech synthesis failed" ]}, s3).
Proof.
  intros transcribed_text response_text Htr Hs Ht Htext Hok Hpolly Hfail.
  destruct (process_text_input_returns w dh transcribed_text s1)
    as (d & s' & Hrun & [response Hresp] & _).
  rewrite Htext in Hrun. injection Hrun as <- <-.
  exists response. split; [exact Hresp|].
  unfold process_voice_input. munfold.
  rewrite Htr, Hs. simpl. fold transcribed_text. rewrite Ht. simpl.
  rewrite Htext, Hok. simpl. fold response_text. rewrite Hpolly, Hfail. simpl.
  unfold response_text, get_default. now rewrite Hresp.
Qed.

Lemma process_voice_input_synthesis_failure_witness :
  let w := world_with (configured "bucket" true) ([], Returns session_ok)
             (fun _ => 0%float) (Returns ()) (fun _ => Returns COMPLETED)
             (Returns "CAPITAL_QUERY:COUNTRY:France")
             (Raises "polly is unreachable") in
  exists s3,
    process_voice_input w 5 france_table some_audio initial_state
    = (Val {[ "response" := VStr "It is Paris.";
              "success" := VBool true;
              "audio_bytes" := VNone;
              "error" := VStr "Speech synthesis failed" ]}, s3).
Proof.
  intros w.
  edestruct (process_voice_input_synthesis_failure w 5 france_table some_audio
               initial_state) as (response & Hresp & Hrun).
  - reflexivity.
  - reflexivity.
  - reflexivity.
  - reflexivity.
  - reflexivity.
  - reflexivity.
  - reflexivity.
  - injection Hresp as <-. eexists. exact Hrun.
Defined.
